(** * Two-stock frontier: a shallow embedding of [two_asset_frontier.py]

    The numerical core of [plot_two_stock_efficient_frontier] is embedded
    twice.

    - Over IEEE 754 binary64 numbers (module [F64]): every operation is
      rounded as the machine rounds it and a power of Python floats raises
      [OverflowError] when it overflows.  This model decides what depends on
      rounding: whether a variance is negative, whether a standard deviation
      is NaN, which index [np.argmin] returns, whether the call raises.

    - Over the real numbers, extended with [NaN] for [np.sqrt] of a negative
      argument: the script in exact arithmetic.  It carries the properties of
      structure (sizes, slices, segments, the order of the returns, what the
      figure holds) and the values that rounding does not move: the end
      points of the curve, and inputs where the quantities compared differ by
      far more than a rounding error.  It says nothing of a sign or of a tie
      that exact arithmetic alone decides.

    The global numpy generator is an explicit state threaded through the
    call, and the Python exceptions that the calls can raise are an explicit
    error result. *)

From Stdlib Require Import PrimFloat String Reals Lra Lia List Arith PeanoNat Bool.
Import ListNotations.

Open Scope R_scope.

(** ** Results of a Python call *)

(** [ValueError] and [IndexError] are what numpy and list indexing raise,
    [OverflowError] is what a power of Python floats raises when its result
    overflows; [InvalidParameter] is the error kind of the specification: no
    statement of the script constructs it. *)
Inductive exception : Type :=
| ValueError
| IndexError
| OverflowError
| InvalidParameter.

Inductive outcome (A : Type) : Type :=
| Returned (a : A)
| Raised (e : exception).

Arguments Returned {A} a.
Arguments Raised {A} e.

(** ** The numpy fragment used by the script, in exact arithmetic *)

Module Np.

(** A float64 array element: a real, or not-a-number. *)
Inductive float : Type :=
| Fin (r : R)
| NaN.

Definition isnan (x : float) : bool :=
  match x with
  | NaN => true
  | Fin _ => false
  end.

(** [x >= y] on floats: false as soon as one side is [NaN]. *)
Definition ge (x y : float) : bool :=
  match x, y with
  | Fin a, Fin b => if Rle_dec b a then true else false
  | _, _ => false
  end.

(** [np.sqrt]: not-a-number below zero. *)
Definition sqrt (x : R) : float :=
  if Rlt_dec x 0 then NaN else Fin (R_sqrt.sqrt x).

(** [np.linspace(start, stop, num)], end point included:
    [arange(0, num) * step + start] with [step = (stop - start) / (num - 1)].
    numpy then stores [stop] in the last cell; in exact arithmetic that is
    the value already there ([linspace_last] below). *)
Definition linspace (start stop : R) (num : nat) : list R :=
  let step := (stop - start) / INR (num - 1) in
  map (fun i => INR i * step + start) (seq 0 num).

(** The scan of [np.argmin]: [mp] is the running minimum, [min_ind] its
    index, [i] the index of the head of [ip].  An element replaces the
    minimum when [not (x >= mp)], and the scan stops at the first [NaN]. *)
Fixpoint argmin_loop (mp : float) (min_ind i : nat) (ip : list float) : nat :=
  match ip with
  | [] => min_ind
  | x :: ip' =>
      if ge x mp then argmin_loop mp min_ind (S i) ip'
      else if isnan x then i
      else argmin_loop x i (S i) ip'
  end.

(** [np.argmin(a)]: raises [ValueError] on an empty sequence. *)
Definition argmin (a : list float) : outcome nat :=
  match a with
  | [] => Raised ValueError
  | mp :: ip => Returned (if isnan mp then 0%nat else argmin_loop mp 0 1 ip)
  end.

(** [a[i]] for a non-negative index. *)
Definition getitem {A : Type} (a : list A) (i : nat) : outcome A :=
  match nth_error a i with
  | Some x => Returned x
  | None => Raised IndexError
  end.

(** The state of the global generator, seen as the sequence of the
    uniform draws it is going to deliver. *)
Definition rng_state : Type := nat -> R.

(** [np.random.rand(n)]: the next [n] draws, and the generator advanced
    past them. *)
Definition rand (n : nat) (g : rng_state) : list R * rng_state :=
  (map g (seq 0 n), fun k => g (n + k)%nat).


End Np.

(** ** Calls that read the generator and may raise *)

Definition M (A : Type) : Type := Np.rng_state -> outcome (A * Np.rng_state).

Definition ret {A : Type} (a : A) : M A :=
  fun g => Returned (a, g).

Definition bind {A B : Type} (m : M A) (k : A -> M B) : M B :=
  fun g =>
    match m g with
    | Returned (a, g') => k a g'
    | Raised e => Raised e
    end.

Definition lift {A : Type} (o : outcome A) : M A :=
  fun g =>
    match o with
    | Returned a => Returned (a, g)
    | Raised e => Raised e
    end.

Definition draw (n : nat) : M (list R) :=
  fun g => Returned (Np.rand n g).

Notation "x <- m ;; k" := (bind m (fun x => k))
  (at level 61, m at next level, right associativity).

(** ** The script in exact arithmetic *)

(** The two statements at the head of each loop body. *)
Definition p_return (mu_A mu_B w : R) : R :=
  w * mu_A + (1 - w) * mu_B.

Definition p_var (sigma_A sigma_B cov_AB w : R) : R :=
  (w ^ 2) * (sigma_A ^ 2) + ((1 - w) ^ 2) * (sigma_B ^ 2) + 2 * w * (1 - w) * cov_AB.

Definition rp_return (mu_A mu_B w : R) : R :=
  w * mu_A + (1 - w) * mu_B.

Definition rp_var (sigma_A sigma_B cov_AB w : R) : R :=
  (w ^ 2) * (sigma_A ^ 2) + ((1 - w) ^ 2) * (sigma_B ^ 2) + 2 * w * (1 - w) * cov_AB.

(** What the function has computed when it hands its series to the plot:
    the sampled weights, the two arrays of the curve, the index and the
    coordinates of the minimum-variance portfolio, the four slices and the
    random cloud. *)
Record frontier : Type := {
  weights : list R;
  port_returns : list R;
  port_stdevs : list Np.float;
  idx_min : nat;
  mvp_x : Np.float;
  mvp_y : R;
  x_inef : list Np.float;
  y_inef : list R;
  x_ef : list Np.float;
  y_ef : list R;
  rand_w : list R;
  rand_returns : list R;
  rand_stdevs : list Np.float
}.

Definition n_points : nat := 200.
Definition n_portfolios : nat := 3000.

Definition plot_two_stock_efficient_frontier
  (mu_A mu_B sigma_A sigma_B corr_AB : R) : M frontier :=
  (* 1) covariance *)
  let cov_AB := corr_AB * sigma_A * sigma_B in
  (* 2) parametric frontier *)
  let weights := Np.linspace 0 1 n_points in
  let port_returns := map (fun w => p_return mu_A mu_B w) weights in
  let port_stdevs :=
    map (fun w => Np.sqrt (p_var sigma_A sigma_B cov_AB w)) weights in
  (* 3) minimum-variance portfolio *)
  idx_min <- lift (Np.argmin port_stdevs) ;;
  mvp_x <- lift (Np.getitem port_stdevs idx_min) ;;
  mvp_y <- lift (Np.getitem port_returns idx_min) ;;
  (* 4) the two segments *)
  let x_inef := firstn (idx_min + 1) port_stdevs in
  let y_inef := firstn (idx_min + 1) port_returns in
  let x_ef := skipn idx_min port_stdevs in
  let y_ef := skipn idx_min port_returns in
  (* 5) random portfolios *)
  rand_w <- draw n_portfolios ;;
  let rand_returns := map (fun w => rp_return mu_A mu_B w) rand_w in
  let rand_stdevs :=
    map (fun w => Np.sqrt (rp_var sigma_A sigma_B cov_AB w)) rand_w in
  ret {| weights := weights;
         port_returns := port_returns;
         port_stdevs := port_stdevs;
         idx_min := idx_min;
         mvp_x := mvp_x;
         mvp_y := mvp_y;
         x_inef := x_inef;
         y_inef := y_inef;
         x_ef := x_ef;
         y_ef := y_ef;
         rand_w := rand_w;
         rand_returns := rand_returns;
         rand_stdevs := rand_stdevs |}.

(** The valid inputs of the specification. *)
Definition valid (sigma_A sigma_B corr_AB : R) : Prop :=
  0 <= sigma_A /\ 0 <= sigma_B /\ -1 <= corr_AB <= 1.

(** A point of the curve as the specification sees it: weight, expected
    return, standard deviation. *)
Record FrontierPoint : Type := {
  weightA : R;
  expectedReturn : R;
  stdDev : Np.float
}.

Fixpoint zip3 (ws rs : list R) (ss : list Np.float) : list FrontierPoint :=
  match ws, rs, ss with
  | w :: ws', r :: rs', s :: ss' =>
      {| weightA := w; expectedReturn := r; stdDev := s |} :: zip3 ws' rs' ss'
  | _, _, _ => []
  end.

Definition curve (f : frontier) : list FrontierPoint :=
  zip3 (weights f) (port_returns f) (port_stdevs f).

Definition inefficient (f : frontier) : list FrontierPoint :=
  zip3 (firstn (idx_min f + 1) (weights f)) (y_inef f) (x_inef f).

Definition efficient (f : frontier) : list FrontierPoint :=
  zip3 (skipn (idx_min f) (weights f)) (y_ef f) (x_ef f).

Definition minVariance (f : frontier) : FrontierPoint :=
  {| weightA := nth (idx_min f) (weights f) 0;
     expectedReturn := mvp_y f;
     stdDev := mvp_x f |}.

(** [j] is the first position of the least element [m] of [l]. *)
Definition first_min (l : list R) (j : nat) (m : R) : Prop :=
  nth_error l j = Some m /\
  (forall p x, nth_error l p = Some x -> m <= x) /\
  (forall p x, (p < j)%nat -> nth_error l p = Some x -> m < x).

(** The relation between the inputs, the generator and the locals of a
    call that returns. *)
Record computes (mu_A mu_B sigma_A sigma_B corr_AB : R)
  (g : Np.rng_state) (f : frontier) (g' : Np.rng_state) : Prop := {
  c_weights : weights f = Np.linspace 0 1 n_points;
  c_returns : port_returns f = map (p_return mu_A mu_B) (weights f);
  c_stdevs :
    port_stdevs f =
    map (fun w => Np.sqrt (p_var sigma_A sigma_B (corr_AB * sigma_A * sigma_B) w))
      (weights f);
  c_idx : Np.argmin (port_stdevs f) = Returned (idx_min f);
  c_mvp_x : nth_error (port_stdevs f) (idx_min f) = Some (mvp_x f);
  c_mvp_y : nth_error (port_returns f) (idx_min f) = Some (mvp_y f);
  c_x_inef : x_inef f = firstn (idx_min f + 1) (port_stdevs f);
  c_y_inef : y_inef f = firstn (idx_min f + 1) (port_returns f);
  c_x_ef : x_ef f = skipn (idx_min f) (port_stdevs f);
  c_y_ef : y_ef f = skipn (idx_min f) (port_returns f);
  c_rand_w : rand_w f = map g (seq 0 n_portfolios);
  c_rand_returns : rand_returns f = map (rp_return mu_A mu_B) (rand_w f);
  c_rand_stdevs :
    rand_stdevs f =
    map (fun w => Np.sqrt (rp_var sigma_A sigma_B (corr_AB * sigma_A * sigma_B) w))
      (rand_w f);
  c_rng : g' = fun k => g (n_portfolios + k)%nat
}.

(** ** The figure *)





(** ** The script in binary64 *)

(** The same function over IEEE 754 binary64 numbers, operation by
    operation and in the order Python evaluates them.  Every product, sum,
    difference, quotient and square root is rounded as the machine rounds
    it, so this is the model that decides whether a standard deviation is
    NaN and which index [np.argmin] returns. *)
Module F64.

Local Open Scope float_scope.

Definition float64 : Type := PrimFloat.float.

(** [x ** 2] on Python floats: C's [pow(x, 2.0)], taken as the correctly
    rounded square.  Python raises [OverflowError] when the result of a
    finite argument is infinite. *)
Definition py_pow2 (x : float64) : outcome float64 :=
  let r := x * x in
  if PrimFloat.is_finite x && PrimFloat.is_infinity r
  then Raised OverflowError
  else Returned r.

(** [x ** 2] on a numpy scalar: the same square, and no exception. *)
Definition np_pow2 (x : float64) : float64 := x * x.

Fixpoint of_nat (n : nat) : float64 :=
  match n with
  | O => 0
  | S n' => of_nat n' + 1
  end.

(** [np.arange(0, num)] as floats, from [x]. *)
Fixpoint arange (x : float64) (num : nat) : list float64 :=
  match num with
  | O => []
  | S num' => x :: arange (x + 1) num'
  end.

(** [np.linspace(start, stop, num)]: [arange(0, num) * step + start] with
    [step = (stop - start) / (num - 1)], then [stop] stored in the last
    cell. *)
Definition linspace (start stop : float64) (num : nat) : list float64 :=
  let step := (stop - start) / of_nat (num - 1) in
  let y := map (fun i => i * step + start) (arange 0 num) in
  if (1 <? num)%nat then removelast y ++ [stop] else y.

(** [x >= y]: false as soon as one side is NaN. *)
Definition ge (x y : float64) : bool := (y <=? x).

Fixpoint argmin_loop (mp : float64) (min_ind i : nat) (ip : list float64) : nat :=
  match ip with
  | [] => min_ind
  | x :: ip' =>
      if ge x mp then argmin_loop mp min_ind (S i) ip'
      else if PrimFloat.is_nan x then i
      else argmin_loop x i (S i) ip'
  end.

Definition argmin (a : list float64) : outcome nat :=
  match a with
  | [] => Raised ValueError
  | mp :: ip =>
      Returned (if PrimFloat.is_nan mp then 0%nat else argmin_loop mp 0 1 ip)
  end.

Definition rng_state : Type := nat -> float64.

Definition rand (n : nat) (g : rng_state) : list float64 * rng_state :=
  (map g (seq 0 n), fun k => g (n + k)%nat).

Definition M (A : Type) : Type := rng_state -> outcome (A * rng_state).

Definition ret {A : Type} (a : A) : M A :=
  fun g => Returned (a, g).

Definition bind {A B : Type} (m : M A) (k : A -> M B) : M B :=
  fun g =>
    match m g with
    | Returned (a, g') => k a g'
    | Raised e => Raised e
    end.

Definition lift {A : Type} (o : outcome A) : M A :=
  fun g =>
    match o with
    | Returned a => Returned (a, g)
    | Raised e => Raised e
    end.

Definition draw (n : nat) : M (list float64) :=
  fun g => Returned (rand n g).

Definition p_return (mu_A mu_B w : float64) : float64 :=
  w * mu_A + (1 - w) * mu_B.

(** The variance: the two squares of Python floats are evaluated at every
    turn of the loop, [sigma_A ** 2] first. *)
Definition p_var (sigma_A sigma_B cov_AB w : float64) : outcome float64 :=
  match py_pow2 sigma_A with
  | Raised e => Raised e
  | Returned a2 =>
      match py_pow2 sigma_B with
      | Raised e => Raised e
      | Returned b2 =>
          Returned (np_pow2 w * a2 + np_pow2 (1 - w) * b2
                    + 2 * w * (1 - w) * cov_AB)
      end
  end.

(** One [for w in ...] loop: it appends a return and a standard deviation
    per weight, and stops at the first exception.  Both loops of the function
    have this body. *)
Fixpoint loop (mu_A mu_B sigma_A sigma_B cov_AB : float64)
  (ws : list float64) : outcome (list float64 * list float64) :=
  match ws with
  | [] => Returned ([], [])
  | w :: ws' =>
      match p_var sigma_A sigma_B cov_AB w with
      | Raised e => Raised e
      | Returned v =>
          match loop mu_A mu_B sigma_A sigma_B cov_AB ws' with
          | Raised e => Raised e
          | Returned (returns, stdevs) =>
              Returned (p_return mu_A mu_B w :: returns,
                        PrimFloat.sqrt v :: stdevs)
          end
      end
  end.

Record frontier : Type := {
  weights : list float64;
  port_returns : list float64;
  port_stdevs : list float64;
  idx_min : nat;
  mvp_x : float64;
  mvp_y : float64;
  x_inef : list float64;
  y_inef : list float64;
  x_ef : list float64;
  y_ef : list float64;
  rand_w : list float64;
  rand_returns : list float64;
  rand_stdevs : list float64
}.

Definition plot_two_stock_efficient_frontier
  (mu_A mu_B sigma_A sigma_B corr_AB : float64) : M frontier :=
  (* 1) covariance *)
  let cov_AB := corr_AB * sigma_A * sigma_B in
  (* 2) parametric frontier *)
  let weights := linspace 0 1 n_points in
  bind (lift (loop mu_A mu_B sigma_A sigma_B cov_AB weights))
    (fun '(port_returns, port_stdevs) =>
  (* 3) minimum-variance portfolio *)
  bind (lift (argmin port_stdevs)) (fun idx_min =>
  bind (lift (Np.getitem port_stdevs idx_min)) (fun mvp_x =>
  bind (lift (Np.getitem port_returns idx_min)) (fun mvp_y =>
  (* 4) the two segments *)
  let x_inef := firstn (idx_min + 1) port_stdevs in
  let y_inef := firstn (idx_min + 1) port_returns in
  let x_ef := skipn idx_min port_stdevs in
  let y_ef := skipn idx_min port_returns in
  (* 5) random portfolios *)
  bind (draw n_portfolios) (fun rand_w =>
  bind (lift (loop mu_A mu_B sigma_A sigma_B cov_AB rand_w))
    (fun '(rand_returns, rand_stdevs) =>
  ret {| weights := weights;
         port_returns := port_returns;
         port_stdevs := port_stdevs;
         idx_min := idx_min;
         mvp_x := mvp_x;
         mvp_y := mvp_y;
         x_inef := x_inef;
         y_inef := y_inef;
         x_ef := x_ef;
         y_ef := y_ef;
         rand_w := rand_w;
         rand_returns := rand_returns;
         rand_stdevs := rand_stdevs |})))))).

(** What a call hands back, without the generator. *)
Definition returned (o : outcome (frontier * rng_state)) : option frontier :=
  match o with
  | Returned (f, _) => Some f
  | Raised _ => None
  end.

(** The decimal literals 0.10, 0.15, 0.4 and 1.59 of the worked inputs:
    the binary64 number nearest to each, which is what Python reads. *)
Definition d0_10 : float64 := 0x1.999999999999ap-4.
Definition d0_15 : float64 := 0x1.3333333333333p-3.
Definition d0_4 : float64 := 0x1.999999999999ap-2.
Definition d1_59 : float64 := 0x1.970a3d70a3d71p+0.

Local Close Scope float_scope.

End F64.

(** ** Lists and slices *)

Lemma In_nth_error_iff {A : Type} (l : list A) (x : A) :
  In x l <-> exists j, nth_error l j = Some x.
Proof.
  split.
  - apply In_nth_error.
  - intros (j & Hj). eapply nth_error_In; eassumption.
Qed.






Lemma nth_error_skipn_add {A : Type} (n j : nat) (l : list A) :
  nth_error (skipn n l) j = nth_error l (n + j).
Proof.
  revert l. induction n as [| n IH]; intros l; [reflexivity |].
  destruct l as [| x l]; [now destruct j |]. apply (IH l).
Qed.

Lemma In_skipn_of_nth_error {A : Type} (n j : nat) (l : list A) (x : A) :
  (n <= j)%nat -> nth_error l j = Some x -> In x (skipn n l).
Proof.
  intros Hle Hj. apply (nth_error_In _ (j - n)).
  rewrite nth_error_skipn_add. now replace (n + (j - n))%nat with j by lia.
Qed.

(** ** The numpy fragment: basic facts *)

Lemma linspace_length (a b : R) (n : nat) :
  length (Np.linspace a b n) = n.
Proof.
  unfold Np.linspace. now rewrite length_map, length_seq.
Qed.

Lemma linspace_nth_error (a b : R) (n i : nat) :
  (i < n)%nat ->
  nth_error (Np.linspace a b n) i = Some (INR i * ((b - a) / INR (n - 1)) + a).
Proof.
  intros Hi. unfold Np.linspace.
  rewrite nth_error_map, nth_error_seq.
  destruct (Nat.ltb_spec i n) as [_ | Hge]; [reflexivity | lia].
Qed.

Lemma linspace_In (a b : R) (n : nat) (w : R) :
  In w (Np.linspace a b n) ->
  exists i, (i < n)%nat /\ w = INR i * ((b - a) / INR (n - 1)) + a.
Proof.
  unfold Np.linspace. intros Hw.
  apply in_map_iff in Hw as (i & Hi & Hin).
  apply in_seq in Hin. exists i. split; [lia | now symmetry].
Qed.

Lemma linspace_last (a b : R) (n : nat) :
  (2 <= n)%nat -> nth_error (Np.linspace a b n) (n - 1) = Some b.
Proof.
  intros Hn. rewrite linspace_nth_error by lia. f_equal.
  assert (Hpos : 0 < INR (n - 1)) by (apply lt_0_INR; lia).
  field. lra.
Qed.

Lemma INR_199 : INR (n_points - 1) = 199.
Proof.
  rewrite INR_IZR_INZ. reflexivity.
Qed.

Lemma INR_lt_199 (j : nat) :
  (j < n_points - 1)%nat -> INR j < 199.
Proof.
  intros Hj. rewrite <- INR_199. now apply lt_INR.
Qed.

Lemma INR_198 : INR 198 = 198.
Proof.
  rewrite INR_IZR_INZ. reflexivity.
Qed.

Lemma INR_100 : INR 100 = 100.
Proof.
  rewrite INR_IZR_INZ. reflexivity.
Qed.

Lemma weights_nth_error (i : nat) :
  (i < n_points)%nat ->
  nth_error (Np.linspace 0 1 n_points) i = Some (INR i / 199).
Proof.
  intros Hi. rewrite linspace_nth_error by assumption.
  rewrite INR_199. f_equal. lra.
Qed.

Lemma weights_In (w : R) :
  In w (Np.linspace 0 1 n_points) ->
  exists i, (i < n_points)%nat /\ w = INR i / 199.
Proof.
  intros Hw. apply linspace_In in Hw as (i & Hi & ->).
  exists i. split; [assumption |]. rewrite INR_199. lra.
Qed.

Lemma weights_unit (w : R) :
  In w (Np.linspace 0 1 n_points) -> 0 <= w <= 1.
Proof.
  intros Hw. apply weights_In in Hw as (i & Hi & ->).
  assert (H0 : 0 <= INR i) by apply pos_INR.
  assert (H1 : INR i <= 199).
  { rewrite <- INR_199. apply le_INR. unfold n_points in *. lia. }
  lra.
Qed.

Lemma weight_unit (j : nat) :
  (j < n_points)%nat -> 0 <= INR j / 199 <= 1.
Proof.
  intros Hj. apply weights_unit.
  eapply nth_error_In. now apply weights_nth_error.
Qed.

Lemma np_sqrt_nonneg (x : R) :
  0 <= x -> Np.sqrt x = Np.Fin (sqrt x).
Proof.
  intros Hx. unfold Np.sqrt.
  destruct (Rlt_dec x 0) as [Hneg | _]; [lra | reflexivity].
Qed.

Lemma np_sqrt_neg (x : R) :
  x < 0 -> Np.sqrt x = Np.NaN.
Proof.
  intros Hx. unfold Np.sqrt.
  destruct (Rlt_dec x 0) as [_ | Hpos]; [reflexivity | lra].
Qed.

(** ** [np.argmin] on an array without [NaN] *)

Lemma first_min_snoc_keep (pre : list R) (k : nat) (m x : R) :
  first_min pre k m -> m <= x -> first_min (pre ++ [x]) k m.
Proof.
  intros (Hk & Hall & Hfst) Hmx.
  assert (Hlt : (k < length pre)%nat).
  { apply nth_error_Some. congruence. }
  repeat split.
  - rewrite nth_error_app1; assumption.
  - intros p y Hp.
    destruct (Nat.lt_ge_cases p (length pre)) as [Hin | Hout].
    + rewrite nth_error_app1 in Hp by assumption. eauto.
    + rewrite nth_error_app2 in Hp by assumption.
      destruct (p - length pre)%nat as [| q]; simpl in Hp.
      * injection Hp as <-. assumption.
      * destruct q; discriminate.
  - intros p y Hpk Hp.
    rewrite nth_error_app1 in Hp by lia. eauto.
Qed.

Lemma first_min_snoc_new (pre : list R) (k : nat) (m x : R) :
  first_min pre k m -> x < m -> first_min (pre ++ [x]) (length pre) x.
Proof.
  intros (Hk & Hall & Hfst) Hxm.
  repeat split.
  - rewrite nth_error_app2 by lia. now rewrite Nat.sub_diag.
  - intros p y Hp.
    destruct (Nat.lt_ge_cases p (length pre)) as [Hin | Hout].
    + rewrite nth_error_app1 in Hp by assumption.
      apply Hall in Hp. lra.
    + rewrite nth_error_app2 in Hp by assumption.
      destruct (p - length pre)%nat as [| q]; simpl in Hp.
      * injection Hp as <-. lra.
      * destruct q; discriminate.
  - intros p y Hpk Hp.
    rewrite nth_error_app1 in Hp by assumption.
    apply Hall in Hp. lra.
Qed.

Lemma argmin_loop_first_min (ip pre : list R) (k : nat) (m : R) :
  first_min pre k m ->
  exists m',
    first_min (pre ++ ip)
      (Np.argmin_loop (Np.Fin m) k (length pre) (map Np.Fin ip)) m'.
Proof.
  revert pre k m.
  induction ip as [| x ip IH]; intros pre k m Hpre.
  - exists m. simpl. now rewrite app_nil_r.
  - simpl. destruct (Rle_dec m x) as [Hle | Hgt].
    + destruct (IH (pre ++ [x]) k m) as (m' & Hm').
      { now apply first_min_snoc_keep. }
      exists m'. rewrite length_app, Nat.add_1_r in Hm'.
      now rewrite <- app_assoc in Hm'.
    + destruct (IH (pre ++ [x]) (length pre) x) as (m' & Hm').
      { apply first_min_snoc_new with (k := k) (m := m); [assumption | lra]. }
      exists m'. rewrite length_app, Nat.add_1_r in Hm'.
      now rewrite <- app_assoc in Hm'.
Qed.

Lemma argmin_first_min (l : list R) :
  l <> [] ->
  exists j m, Np.argmin (map Np.Fin l) = Returned j /\ first_min l j m.
Proof.
  destruct l as [| r l]; [congruence | intros _].
  destruct (argmin_loop_first_min l [r] 0 r) as (m' & Hm').
  - repeat split.
    + intros p x Hp. destruct p as [| p]; simpl in Hp.
      * injection Hp as <-. lra.
      * destruct p; discriminate.
    + intros p x Hp. lia.
  - simpl in Hm'. simpl. eauto.
Qed.

Lemma first_min_unique (l : list R) (j j' : nat) (m m' : R) :
  first_min l j m -> first_min l j' m' -> j = j' /\ m = m'.
Proof.
  intros (Hj & Hall & Hfst) (Hj' & Hall' & Hfst').
  assert (Hm : m = m').
  { apply Hall in Hj'. apply Hall' in Hj. lra. }
  subst m'. split; [| reflexivity].
  destruct (Nat.lt_trichotomy j j') as [Hlt | [Heq | Hgt]]; [| assumption |].
  - apply (Hfst' _ _ Hlt) in Hj. lra.
  - apply (Hfst _ _ Hgt) in Hj'. lra.
Qed.

Lemma first_min_lt_length (l : list R) (j : nat) (m : R) :
  first_min l j m -> (j < length l)%nat.
Proof.
  intros (Hj & _). apply nth_error_Some. congruence.
Qed.

Lemma argmin_loop_lt (ip : list Np.float) (mp : Np.float) (k i : nat) :
  (k < i)%nat ->
  (Np.argmin_loop mp k i ip < i + length ip)%nat.
Proof.
  revert mp k i.
  induction ip as [| x ip IH]; intros mp k i Hk; simpl.
  - lia.
  - destruct (Np.ge x mp).
    + specialize (IH mp k (S i)). lia.
    + destruct (Np.isnan x); [lia |].
      specialize (IH x i (S i)). lia.
Qed.

Lemma argmin_lt_length (a : list Np.float) :
  a <> [] ->
  exists j, Np.argmin a = Returned j /\ (j < length a)%nat.
Proof.
  destruct a as [| mp ip]; [congruence | intros _].
  simpl. eexists. split; [reflexivity |].
  destruct (Np.isnan mp); [lia |].
  pose proof (argmin_loop_lt ip mp 0 1). lia.
Qed.

(** ** Return and variance of a portfolio *)

(** The exact variance is non-negative on valid inputs. *)
Lemma p_var_nonneg (sigma_A sigma_B corr_AB w : R) :
  valid sigma_A sigma_B corr_AB -> 0 <= w <= 1 ->
  0 <= p_var sigma_A sigma_B (corr_AB * sigma_A * sigma_B) w.
Proof.
  intros (HA & HB & Hc) Hw. unfold p_var.
  set (a := w * sigma_A). set (b := (1 - w) * sigma_B).
  assert (Ha : 0 <= a) by (unfold a; nra).
  assert (Hb : 0 <= b) by (unfold b; nra).
  replace (w ^ 2 * sigma_A ^ 2 + (1 - w) ^ 2 * sigma_B ^ 2
           + 2 * w * (1 - w) * (corr_AB * sigma_A * sigma_B))
    with ((a - b) ^ 2 + 2 * (1 + corr_AB) * (a * b)) by (unfold a, b; ring).
  assert (H1 : 0 <= (a - b) ^ 2) by apply pow2_ge_0.
  assert (H2 : 0 <= a * b) by nra.
  nra.
Qed.


Lemma sd_perfect_correlation (w : R) :
  0 <= w <= 1 ->
  sqrt (p_var (1/5) (3/10) (1 * (1/5) * (3/10)) w) = 3/10 - w / 10.
Proof.
  intros Hw.
  replace (p_var (1/5) (3/10) (1 * (1/5) * (3/10)) w)
    with ((3/10 - w / 10) ^ 2) by (unfold p_var; field).
  apply sqrt_pow2. lra.
Qed.

(** ** What a call computes *)

Lemma Returned_inj {A : Type} (a b : A) :
  Returned a = Returned b -> a = b.
Proof.
  intros H. now injection H.
Qed.

Lemma plot_inv (mu_A mu_B sigma_A sigma_B corr_AB : R)
  (g : Np.rng_state) (f : frontier) (g' : Np.rng_state) :
  plot_two_stock_efficient_frontier mu_A mu_B sigma_A sigma_B corr_AB g
  = Returned (f, g') ->
  computes mu_A mu_B sigma_A sigma_B corr_AB g f g'.
Proof.
  unfold plot_two_stock_efficient_frontier, bind, lift, draw, ret, Np.getitem, Np.rand.
  destruct (Np.argmin _) as [i | e] eqn:Hi; [| discriminate].
  destruct (nth_error (map (fun w => Np.sqrt _) _) i) as [sx |] eqn:Hx;
    [| discriminate].
  destruct (nth_error (map (fun w => p_return _ _ w) _) i) as [sy |] eqn:Hy;
    [| discriminate].
  intros H. apply Returned_inj in H.
  apply pair_equal_spec in H as [Hf Hg]. subst f g'.
  constructor; cbn [weights port_returns port_stdevs idx_min mvp_x mvp_y
                    x_inef y_inef x_ef y_ef rand_w rand_returns rand_stdevs];
    first [assumption | reflexivity].
Qed.

Lemma plot_returns (mu_A mu_B sigma_A sigma_B corr_AB : R) (g : Np.rng_state) :
  exists f g',
    plot_two_stock_efficient_frontier mu_A mu_B sigma_A sigma_B corr_AB g
    = Returned (f, g').
Proof.
  unfold plot_two_stock_efficient_frontier, bind, lift, draw, ret, Np.getitem.
  set (ws := Np.linspace 0 1 n_points).
  set (ss := map _ ws).
  assert (Hlen : length ws = n_points) by apply linspace_length.
  destruct (argmin_lt_length ss) as (j & -> & Hj).
  { intros Hnil. apply (f_equal (@length _)) in Hnil.
    unfold ss in Hnil. rewrite length_map, Hlen in Hnil. discriminate. }
  unfold ss in Hj. rewrite length_map in Hj.
  destruct (nth_error ss j) as [sx |] eqn:Hx.
  2:{ apply nth_error_None in Hx. unfold ss in Hx. rewrite length_map in Hx. lia. }
  destruct (nth_error (map (fun w => p_return _ _ w) ws) j) as [sy |] eqn:Hy.
  2:{ apply nth_error_None in Hy. rewrite length_map in Hy. lia. }
  do 2 eexists. reflexivity.
Qed.

Lemma plot_total (mu_A mu_B sigma_A sigma_B corr_AB : R) (g : Np.rng_state) :
  exists f g',
    plot_two_stock_efficient_frontier mu_A mu_B sigma_A sigma_B corr_AB g
    = Returned (f, g')
    /\ computes mu_A mu_B sigma_A sigma_B corr_AB g f g'.
Proof.
  destruct (plot_returns mu_A mu_B sigma_A sigma_B corr_AB g) as (f & g' & H).
  exists f, g'. split; [assumption |]. now apply plot_inv.
Qed.

Lemma plot_never_raises (mu_A mu_B sigma_A sigma_B corr_AB : R)
  (g : Np.rng_state) (e : exception) :
  plot_two_stock_efficient_frontier mu_A mu_B sigma_A sigma_B corr_AB g
  <> Raised e.
Proof.
  destruct (plot_returns mu_A mu_B sigma_A sigma_B corr_AB g) as (f & g' & H).
  rewrite H. discriminate.
Qed.

(** ** Points of the curve *)

Lemma zip3_length (ws rs : list R) (ss : list Np.float) :
  length rs = length ws -> length ss = length ws ->
  length (zip3 ws rs ss) = length ws.
Proof.
  revert rs ss.
  induction ws as [| w ws IH]; intros [| r rs] [| s ss]; simpl;
    try discriminate; try reflexivity.
  intros Hr Hs. f_equal. apply IH; congruence.
Qed.

Lemma zip3_nth_error (ws rs : list R) (ss : list Np.float) (j : nat)
  (p : FrontierPoint) :
  nth_error (zip3 ws rs ss) j = Some p ->
  nth_error ws j = Some (weightA p)
  /\ nth_error rs j = Some (expectedReturn p)
  /\ nth_error ss j = Some (stdDev p).
Proof.
  revert rs ss j.
  induction ws as [| w ws IH]; intros [| r rs] [| s ss] j; simpl;
    try (destruct j; discriminate).
  destruct j as [| j]; simpl.
  - intros H. injection H as <-. simpl. auto.
  - apply IH.
Qed.

Lemma zip3_nth_error_intro (ws rs : list R) (ss : list Np.float) (j : nat)
  (w r : R) (s : Np.float) :
  nth_error ws j = Some w -> nth_error rs j = Some r -> nth_error ss j = Some s ->
  nth_error (zip3 ws rs ss) j
  = Some {| weightA := w; expectedReturn := r; stdDev := s |}.
Proof.
  revert rs ss j.
  induction ws as [| w0 ws IH]; intros [| r0 rs] [| s0 ss] [| j]; simpl;
    try discriminate.
  - intros Hw Hr Hs. injection Hw as ->. injection Hr as ->. injection Hs as ->.
    reflexivity.
  - apply IH.
Qed.

Lemma zip3_firstn (n : nat) (ws rs : list R) (ss : list Np.float) :
  firstn n (zip3 ws rs ss) = zip3 (firstn n ws) (firstn n rs) (firstn n ss).
Proof.
  revert ws rs ss.
  induction n as [| n IH]; intros ws rs ss; [reflexivity |].
  destruct ws as [| w ws]; [reflexivity |].
  destruct rs as [| r rs]; [reflexivity |].
  destruct ss as [| s ss]; [reflexivity |].
  simpl. now rewrite IH.
Qed.

Lemma zip3_skipn (n : nat) (ws rs : list R) (ss : list Np.float) :
  length rs = length ws -> length ss = length ws ->
  skipn n (zip3 ws rs ss) = zip3 (skipn n ws) (skipn n rs) (skipn n ss).
Proof.
  revert ws rs ss.
  induction n as [| n IH]; intros ws rs ss Hr Hs; [reflexivity |].
  destruct ws as [| w ws]; destruct rs as [| r rs]; destruct ss as [| s ss];
    simpl in *; try discriminate; try reflexivity.
  apply IH; congruence.
Qed.

(** The three arrays of a returned frontier, read position by position. *)
Lemma curve_nth_error (mu_A mu_B sigma_A sigma_B corr_AB : R)
  (g g' : Np.rng_state) (f : frontier) (j : nat) (p : FrontierPoint) :
  computes mu_A mu_B sigma_A sigma_B corr_AB g f g' ->
  nth_error (curve f) j = Some p <->
  (j < n_points)%nat
  /\ p = {| weightA := INR j / 199;
            expectedReturn := p_return mu_A mu_B (INR j / 199);
            stdDev :=
              Np.sqrt (p_var sigma_A sigma_B (corr_AB * sigma_A * sigma_B)
                         (INR j / 199)) |}.
Proof.
  intros C. unfold curve.
  rewrite (c_returns _ _ _ _ _ _ _ _ C), (c_stdevs _ _ _ _ _ _ _ _ C),
    (c_weights _ _ _ _ _ _ _ _ C).
  split.
  - intros H.
    assert (Hj : (j < n_points)%nat).
    { apply zip3_nth_error in H as (Hw & _).
      rewrite <- (linspace_length 0 1 n_points).
      apply nth_error_Some. congruence. }
    split; [assumption |].
    erewrite zip3_nth_error_intro in H.
    + injection H as <-. reflexivity.
    + now apply weights_nth_error.
    + rewrite nth_error_map, weights_nth_error by assumption. reflexivity.
    + rewrite nth_error_map, weights_nth_error by assumption. reflexivity.
  - intros (Hj & ->). apply zip3_nth_error_intro.
    + now apply weights_nth_error.
    + rewrite nth_error_map, weights_nth_error by assumption. reflexivity.
    + rewrite nth_error_map, weights_nth_error by assumption. reflexivity.
Qed.

Lemma curve_length (mu_A mu_B sigma_A sigma_B corr_AB : R)
  (g g' : Np.rng_state) (f : frontier) :
  computes mu_A mu_B sigma_A sigma_B corr_AB g f g' ->
  length (curve f) = n_points.
Proof.
  intros C. unfold curve.
  rewrite zip3_length.
  - rewrite (c_weights _ _ _ _ _ _ _ _ C). apply linspace_length.
  - rewrite (c_returns _ _ _ _ _ _ _ _ C). apply length_map.
  - rewrite (c_stdevs _ _ _ _ _ _ _ _ C). apply length_map.
Qed.

(** In exact arithmetic, on valid inputs, the standard deviations of the
    curve are the real square roots of non-negative variances.  The rounded
    variance of the machine can be negative on such inputs: see C2 below. *)
Lemma stdevs_valid (mu_A mu_B sigma_A sigma_B corr_AB : R)
  (g g' : Np.rng_state) (f : frontier) :
  valid sigma_A sigma_B corr_AB ->
  computes mu_A mu_B sigma_A sigma_B corr_AB g f g' ->
  port_stdevs f =
  map Np.Fin
    (map (fun w => sqrt (p_var sigma_A sigma_B (corr_AB * sigma_A * sigma_B) w))
       (weights f)).
Proof.
  intros V C. rewrite (c_stdevs _ _ _ _ _ _ _ _ C), map_map.
  apply map_ext_in. intros w Hw.
  apply np_sqrt_nonneg, p_var_nonneg; [assumption |].
  apply weights_unit. now rewrite <- (c_weights _ _ _ _ _ _ _ _ C).
Qed.

(** The marker of the minimum-variance portfolio is the point of the curve
    at [idx_min], on every input. *)
Lemma mvp_on_curve (mu_A mu_B sigma_A sigma_B corr_AB : R)
  (g g' : Np.rng_state) (f : frontier) :
  computes mu_A mu_B sigma_A sigma_B corr_AB g f g' ->
  (idx_min f < n_points)%nat
  /\ nth_error (curve f) (idx_min f) = Some (minVariance f).
Proof.
  intros C.
  assert (Hlt : (idx_min f < length (weights f))%nat).
  { pose proof (c_mvp_x _ _ _ _ _ _ _ _ C) as Hx.
    rewrite (c_stdevs _ _ _ _ _ _ _ _ C) in Hx.
    rewrite <- (length_map
                  (fun w => Np.sqrt (p_var sigma_A sigma_B
                                       (corr_AB * sigma_A * sigma_B) w))).
    apply nth_error_Some. congruence. }
  split.
  - rewrite (c_weights _ _ _ _ _ _ _ _ C), linspace_length in Hlt. exact Hlt.
  - unfold curve, minVariance. apply zip3_nth_error_intro.
    + now apply nth_error_nth'.
    + apply (c_mvp_y _ _ _ _ _ _ _ _ C).
    + apply (c_mvp_x _ _ _ _ _ _ _ _ C).
Qed.

(** In exact arithmetic, on valid inputs, [idx_min] is the first position
    of the least standard deviation. *)
Lemma idx_min_first_min (mu_A mu_B sigma_A sigma_B corr_AB : R)
  (g g' : Np.rng_state) (f : frontier) :
  valid sigma_A sigma_B corr_AB ->
  computes mu_A mu_B sigma_A sigma_B corr_AB g f g' ->
  exists m,
    mvp_x f = Np.Fin m
    /\ first_min
         (map (fun w => sqrt (p_var sigma_A sigma_B
                                (corr_AB * sigma_A * sigma_B) w))
            (weights f))
         (idx_min f) m.
Proof.
  intros V C.
  pose proof (stdevs_valid _ _ _ _ _ _ _ _ V C) as Hs.
  set (l := map (fun w => sqrt (p_var sigma_A sigma_B
                                  (corr_AB * sigma_A * sigma_B) w))
              (weights f)) in *.
  destruct (argmin_first_min l) as (j & m & Hj & Hm).
  { intros Hnil. apply (f_equal (@length _)) in Hnil.
    unfold l in Hnil.
    rewrite length_map, (c_weights _ _ _ _ _ _ _ _ C), linspace_length in Hnil.
    discriminate. }
  pose proof (c_idx _ _ _ _ _ _ _ _ C) as Hi.
  rewrite Hs, Hj in Hi. apply Returned_inj in Hi. subst j.
  exists m. split; [| assumption].
  pose proof (c_mvp_x _ _ _ _ _ _ _ _ C) as Hx.
  rewrite Hs, nth_error_map in Hx.
  destruct Hm as (Hm & _). rewrite Hm in Hx. simpl in Hx. congruence.
Qed.

Lemma inefficient_prefix (mu_A mu_B sigma_A sigma_B corr_AB : R)
  (g g' : Np.rng_state) (f : frontier) :
  computes mu_A mu_B sigma_A sigma_B corr_AB g f g' ->
  inefficient f = firstn (idx_min f + 1) (curve f).
Proof.
  intros C. unfold inefficient, curve.
  rewrite (c_x_inef _ _ _ _ _ _ _ _ C), (c_y_inef _ _ _ _ _ _ _ _ C).
  now rewrite zip3_firstn.
Qed.

Lemma efficient_suffix (mu_A mu_B sigma_A sigma_B corr_AB : R)
  (g g' : Np.rng_state) (f : frontier) :
  computes mu_A mu_B sigma_A sigma_B corr_AB g f g' ->
  efficient f = skipn (idx_min f) (curve f).
Proof.
  intros C. unfold efficient, curve.
  rewrite (c_x_ef _ _ _ _ _ _ _ _ C), (c_y_ef _ _ _ _ _ _ _ _ C).
  rewrite zip3_skipn; [reflexivity | |].
  - rewrite (c_returns _ _ _ _ _ _ _ _ C). apply length_map.
  - rewrite (c_stdevs _ _ _ _ _ _ _ _ C). apply length_map.
Qed.

(** ** Two calls *)

(** The arrays of the curve, the index of the minimum and the slices depend
    on the five inputs only. *)
Lemma computes_curve_deterministic (mu_A mu_B sigma_A sigma_B corr_AB : R)
  (g1 g1' g2 g2' : Np.rng_state) (f1 f2 : frontier) :
  computes mu_A mu_B sigma_A sigma_B corr_AB g1 f1 g1' ->
  computes mu_A mu_B sigma_A sigma_B corr_AB g2 f2 g2' ->
  weights f1 = weights f2
  /\ port_returns f1 = port_returns f2
  /\ port_stdevs f1 = port_stdevs f2
  /\ idx_min f1 = idx_min f2
  /\ mvp_x f1 = mvp_x f2
  /\ mvp_y f1 = mvp_y f2
  /\ x_inef f1 = x_inef f2
  /\ y_inef f1 = y_inef f2
  /\ x_ef f1 = x_ef f2
  /\ y_ef f1 = y_ef f2.
Proof.
  intros C1 C2.
  assert (Hw : weights f1 = weights f2).
  { rewrite (c_weights _ _ _ _ _ _ _ _ C1). symmetry.
    apply (c_weights _ _ _ _ _ _ _ _ C2). }
  assert (Hr : port_returns f1 = port_returns f2).
  { rewrite (c_returns _ _ _ _ _ _ _ _ C1), (c_returns _ _ _ _ _ _ _ _ C2).
    now rewrite Hw. }
  assert (Hs : port_stdevs f1 = port_stdevs f2).
  { rewrite (c_stdevs _ _ _ _ _ _ _ _ C1), (c_stdevs _ _ _ _ _ _ _ _ C2).
    now rewrite Hw. }
  assert (Hi : idx_min f1 = idx_min f2).
  { apply Returned_inj.
    rewrite <- (c_idx _ _ _ _ _ _ _ _ C1), <- (c_idx _ _ _ _ _ _ _ _ C2).
    now rewrite Hs. }
  assert (Hx : mvp_x f1 = mvp_x f2).
  { pose proof (c_mvp_x _ _ _ _ _ _ _ _ C1) as E1.
    pose proof (c_mvp_x _ _ _ _ _ _ _ _ C2) as E2.
    rewrite Hs, Hi in E1. congruence. }
  assert (Hy : mvp_y f1 = mvp_y f2).
  { pose proof (c_mvp_y _ _ _ _ _ _ _ _ C1) as E1.
    pose proof (c_mvp_y _ _ _ _ _ _ _ _ C2) as E2.
    rewrite Hr, Hi in E1. congruence. }
  repeat split; try assumption.
  - rewrite (c_x_inef _ _ _ _ _ _ _ _ C1), (c_x_inef _ _ _ _ _ _ _ _ C2).
    now rewrite Hs, Hi.
  - rewrite (c_y_inef _ _ _ _ _ _ _ _ C1), (c_y_inef _ _ _ _ _ _ _ _ C2).
    now rewrite Hr, Hi.
  - rewrite (c_x_ef _ _ _ _ _ _ _ _ C1), (c_x_ef _ _ _ _ _ _ _ _ C2).
    now rewrite Hs, Hi.
  - rewrite (c_y_ef _ _ _ _ _ _ _ _ C1), (c_y_ef _ _ _ _ _ _ _ _ C2).
    now rewrite Hr, Hi.
Qed.

(** The random cloud depends, besides the inputs, on the next 3000 draws
    of the generator only. *)
Lemma computes_cloud_deterministic (mu_A mu_B sigma_A sigma_B corr_AB : R)
  (g1 g1' g2 g2' : Np.rng_state) (f1 f2 : frontier) :
  computes mu_A mu_B sigma_A sigma_B corr_AB g1 f1 g1' ->
  computes mu_A mu_B sigma_A sigma_B corr_AB g2 f2 g2' ->
  (forall k, (k < n_portfolios)%nat -> g1 k = g2 k) ->
  rand_w f1 = rand_w f2
  /\ rand_returns f1 = rand_returns f2
  /\ rand_stdevs f1 = rand_stdevs f2.
Proof.
  intros C1 C2 Hg.
  assert (Hw : rand_w f1 = rand_w f2).
  { rewrite (c_rand_w _ _ _ _ _ _ _ _ C1), (c_rand_w _ _ _ _ _ _ _ _ C2).
    apply map_ext_in. intros k Hk. apply in_seq in Hk. apply Hg. lia. }
  split; [exact Hw |]. split.
  - rewrite (c_rand_returns _ _ _ _ _ _ _ _ C1),
      (c_rand_returns _ _ _ _ _ _ _ _ C2).
    now rewrite Hw.
  - rewrite (c_rand_stdevs _ _ _ _ _ _ _ _ C1),
      (c_rand_stdevs _ _ _ _ _ _ _ _ C2).
    now rewrite Hw.
Qed.

Lemma frontier_eq (f1 f2 : frontier) :
  weights f1 = weights f2 -> port_returns f1 = port_returns f2 ->
  port_stdevs f1 = port_stdevs f2 -> idx_min f1 = idx_min f2 ->
  mvp_x f1 = mvp_x f2 -> mvp_y f1 = mvp_y f2 ->
  x_inef f1 = x_inef f2 -> y_inef f1 = y_inef f2 ->
  x_ef f1 = x_ef f2 -> y_ef f1 = y_ef f2 ->
  rand_w f1 = rand_w f2 -> rand_returns f1 = rand_returns f2 ->
  rand_stdevs f1 = rand_stdevs f2 ->
  f1 = f2.
Proof.
  destruct f1, f2.
  cbn [weights port_returns port_stdevs idx_min mvp_x mvp_y
       x_inef y_inef x_ef y_ef rand_w rand_returns rand_stdevs].
  intros. subst. reflexivity.
Qed.

(** ** Worked inputs *)

(** Ties go to the first minimum, and a not-a-number wins the scan. *)
Example argmin_tie :
  Np.argmin [Np.Fin 2; Np.Fin 1; Np.Fin 1] = Returned 1%nat.
Proof.
  cbn [Np.argmin Np.isnan Np.argmin_loop Np.ge].
  destruct (Rle_dec 2 1) as [H | _]; [lra |].
  destruct (Rle_dec 1 1) as [_ | H]; [reflexivity | lra].
Qed.

Example argmin_nan :
  Np.argmin [Np.Fin 2; Np.NaN; Np.Fin 1] = Returned 1%nat.
Proof.
  reflexivity.
Qed.

(** With correlation -2 and unit volatilities the call returns a curve
    whose standard deviation at weight 100/199 is not a number. *)
Lemma correlation_out_of_range_nan (g : Np.rng_state) :
  exists f g',
    plot_two_stock_efficient_frontier 0 0 1 1 (-2) g = Returned (f, g')
    /\ nth_error (port_stdevs f) 100 = Some Np.NaN.
Proof.
  destruct (plot_total 0 0 1 1 (-2) g) as (f & g' & H & C).
  exists f, g'. split; [assumption |].
  rewrite (c_stdevs _ _ _ _ _ _ _ _ C), (c_weights _ _ _ _ _ _ _ _ C).
  rewrite nth_error_map, weights_nth_error by (unfold n_points; lia).
  cbn [option_map]. f_equal. rewrite INR_100.
  apply np_sqrt_neg. unfold p_var. lra.
Qed.

(** With both volatilities zero every standard deviation of the curve is
    zero, and the tie is resolved to the first index. *)
Lemma zero_volatility_first_index (mu_A mu_B corr_AB : R) (g : Np.rng_state) :
  -1 <= corr_AB <= 1 ->
  exists f g',
    plot_two_stock_efficient_frontier mu_A mu_B 0 0 corr_AB g = Returned (f, g')
    /\ idx_min f = 0%nat
    /\ forall p, In p (curve f) -> stdDev p = Np.Fin 0.
Proof.
  intros Hc.
  assert (V : valid 0 0 corr_AB) by (unfold valid; lra).
  assert (Hsd : forall w, sqrt (p_var 0 0 (corr_AB * 0 * 0) w) = 0).
  { intros w. replace (p_var 0 0 (corr_AB * 0 * 0) w) with 0
      by (unfold p_var; ring).
    apply sqrt_0. }
  destruct (plot_total mu_A mu_B 0 0 corr_AB g) as (f & g' & H & C).
  exists f, g'. split; [assumption |]. split.
  - destruct (idx_min_first_min _ _ _ _ _ _ _ _ V C) as (m & _ & Hm).
    refine (proj1 (first_min_unique _ _ _ _ 0 Hm _)).
    rewrite (c_weights _ _ _ _ _ _ _ _ C).
    repeat split.
    + rewrite nth_error_map, weights_nth_error by (unfold n_points; lia).
      cbn [option_map]. now rewrite Hsd.
    + intros j x Hj. rewrite nth_error_map in Hj.
      destruct (nth_error _ j) as [w |]; [| discriminate].
      cbn [option_map] in Hj. rewrite Hsd in Hj. injection Hj as <-. lra.
    + intros j x Hj. lia.
  - intros p Hp. apply In_nth_error_iff in Hp as (j & Hj).
    apply (curve_nth_error _ _ _ _ _ _ _ _ _ _ C) in Hj as (Hlt & ->).
    cbn [stdDev].
    rewrite np_sqrt_nonneg by (apply p_var_nonneg; [assumption | now apply weight_unit]).
    now rewrite Hsd.
Qed.

(** ** The script in binary64: what a call does *)

Lemma py_pow2_cases (x : F64.float64) :
  F64.py_pow2 x = Returned (PrimFloat.mul x x)
  \/ F64.py_pow2 x = Raised OverflowError.
Proof.
  unfold F64.py_pow2.
  destruct (PrimFloat.is_finite x && PrimFloat.is_infinity (PrimFloat.mul x x));
    auto.
Qed.

Lemma loop64_returned (mu_A mu_B sigma_A sigma_B cov_AB a2 b2 : F64.float64)
  (ws : list F64.float64) :
  F64.py_pow2 sigma_A = Returned a2 ->
  F64.py_pow2 sigma_B = Returned b2 ->
  exists returns stdevs,
    F64.loop mu_A mu_B sigma_A sigma_B cov_AB ws = Returned (returns, stdevs)
    /\ List.length returns = List.length ws
    /\ List.length stdevs = List.length ws.
Proof.
  intros HA HB. induction ws as [| w ws (rs & ss & E & Lr & Ls)].
  - exists [], []. repeat split.
  - cbn [F64.loop]. unfold F64.p_var. rewrite HA, HB, E.
    do 2 eexists. split; [reflexivity |]. cbn [List.length]. split; congruence.
Qed.

Lemma loop64_raised (mu_A mu_B sigma_A sigma_B cov_AB w : F64.float64)
  (ws : list F64.float64) :
  F64.py_pow2 sigma_A = Raised OverflowError
  \/ F64.py_pow2 sigma_B = Raised OverflowError ->
  F64.loop mu_A mu_B sigma_A sigma_B cov_AB (w :: ws) = Raised OverflowError.
Proof.
  intros H. cbn [F64.loop]. unfold F64.p_var.
  destruct H as [HA | HB].
  - now rewrite HA.
  - rewrite HB. destruct (F64.py_pow2 sigma_A) as [a2 | e] eqn:HA.
    + reflexivity.
    + destruct (py_pow2_cases sigma_A) as [E | E]; congruence.
Qed.

Lemma linspace64_weights :
  exists w ws,
    F64.linspace 0%float 1%float n_points = w :: ws
    /\ List.length (w :: ws) = n_points.
Proof.
  do 2 eexists. split; vm_compute; reflexivity.
Qed.

Lemma argmin64_loop_lt (ip : list F64.float64) (mp : F64.float64) (k i : nat) :
  (k < i)%nat ->
  (F64.argmin_loop mp k i ip < i + List.length ip)%nat.
Proof.
  revert mp k i.
  induction ip as [| x ip IH]; intros mp k i Hk; cbn [F64.argmin_loop List.length].
  - lia.
  - destruct (F64.ge x mp).
    + specialize (IH mp k (S i)). lia.
    + destruct (PrimFloat.is_nan x); [lia |].
      specialize (IH x i (S i)). lia.
Qed.

Lemma argmin64_lt_length (a : list F64.float64) :
  a <> [] ->
  exists j, F64.argmin a = Returned j /\ (j < List.length a)%nat.
Proof.
  destruct a as [| mp ip]; [congruence | intros _].
  cbn [F64.argmin List.length]. eexists. split; [reflexivity |].
  destruct (PrimFloat.is_nan mp); [lia |].
  pose proof (argmin64_loop_lt ip mp 0 1). lia.
Qed.

(** A call returns as soon as the two squares of the volatilities do. *)
Lemma plot64_returns (mu_A mu_B sigma_A sigma_B corr_AB a2 b2 : F64.float64)
  (g : F64.rng_state) :
  F64.py_pow2 sigma_A = Returned a2 ->
  F64.py_pow2 sigma_B = Returned b2 ->
  exists f g',
    F64.plot_two_stock_efficient_frontier mu_A mu_B sigma_A sigma_B corr_AB g
    = Returned (f, g')
    /\ List.length (F64.port_returns f) = n_points
    /\ List.length (F64.port_stdevs f) = n_points
    /\ (F64.idx_min f < n_points)%nat
    /\ nth_error (F64.port_stdevs f) (F64.idx_min f) = Some (F64.mvp_x f)
    /\ nth_error (F64.port_returns f) (F64.idx_min f) = Some (F64.mvp_y f)
    /\ List.length (F64.rand_returns f) = n_portfolios
    /\ List.length (F64.rand_stdevs f) = n_portfolios.
Proof.
  intros HA HB.
  destruct linspace64_weights as (w0 & ws & Ew & Lw).
  set (cov_AB := PrimFloat.mul (PrimFloat.mul corr_AB sigma_A) sigma_B).
  destruct (loop64_returned mu_A mu_B sigma_A sigma_B cov_AB a2 b2 (w0 :: ws) HA HB)
    as (rs & ss & E1 & Lr & Ls).
  destruct (loop64_returned mu_A mu_B sigma_A sigma_B cov_AB a2 b2
              (map g (seq 0 n_portfolios)) HA HB)
    as (rr & rs' & E2 & Lrr & Lrs).
  rewrite length_map, length_seq in Lrr, Lrs.
  destruct (argmin64_lt_length ss) as (j & Ej & Hj).
  { intros Hnil. rewrite Hnil in Ls. discriminate. }
  destruct (nth_error ss j) as [sx |] eqn:Hx.
  2:{ apply nth_error_None in Hx. lia. }
  destruct (nth_error rs j) as [sy |] eqn:Hy.
  2:{ apply nth_error_None in Hy. lia. }
  unfold F64.plot_two_stock_efficient_frontier, F64.bind, F64.lift, F64.draw,
    F64.ret, F64.rand, Np.getitem.
  fold cov_AB. rewrite Ew, E1, Ej, Hx, Hy, E2.
  do 2 eexists. split; [reflexivity |].
  cbn [F64.port_returns F64.port_stdevs F64.idx_min F64.mvp_x F64.mvp_y
       F64.rand_returns F64.rand_stdevs].
  repeat split; congruence || lia.
Qed.

(** A call raises [OverflowError] as soon as one of the two squares does. *)
Lemma plot64_overflows (mu_A mu_B sigma_A sigma_B corr_AB : F64.float64)
  (g : F64.rng_state) :
  F64.py_pow2 sigma_A = Raised OverflowError
  \/ F64.py_pow2 sigma_B = Raised OverflowError ->
  F64.plot_two_stock_efficient_frontier mu_A mu_B sigma_A sigma_B corr_AB g
  = Raised OverflowError.
Proof.
  intros H.
  destruct linspace64_weights as (w0 & ws & Ew & _).
  unfold F64.plot_two_stock_efficient_frontier, F64.bind, F64.lift.
  rewrite Ew, (loop64_raised _ _ _ _ _ w0 ws H). reflexivity.
Qed.

(** ** The claims *)

(** C1, as stated, fails: a negative volatility, or a correlation outside
    [-1, 1], does not make the call raise [InvalidParameter]. *)
Lemma C1_counterexample :
  -1 < 0
  /\ plot_two_stock_efficient_frontier 0 0 (-1) 1 0 (fun _ => 0)
     <> Raised InvalidParameter
  /\ plot_two_stock_efficient_frontier 0 0 1 (-1) 0 (fun _ => 0)
     <> Raised InvalidParameter
  /\ -2 < -1
  /\ plot_two_stock_efficient_frontier 0 0 1 1 (-2) (fun _ => 0)
     <> Raised InvalidParameter.
Proof.
  repeat split; try lra; apply plot_never_raises.
Qed.

(** C1, amended.  The function validates nothing and never raises
    [InvalidParameter].  A negative volatility or a correlation outside
    [-1, 1] is taken as it is, and so are equal means, equal volatilities,
    a correlation of +1 or -1 and a volatility of zero: whenever the two
    squares [sigma_A ** 2] and [sigma_B ** 2] do not overflow, the call
    returns a curve of 200 points with its minimum-variance point on it and a
    cloud of 3000 points; when one of them overflows, Python's
    [OverflowError] is what the call raises. *)
Theorem C1_no_invalid_parameter
  (mu_A mu_B sigma_A sigma_B corr_AB : F64.float64) (g : F64.rng_state) :
  F64.plot_two_stock_efficient_frontier mu_A mu_B sigma_A sigma_B corr_AB g
  <> Raised InvalidParameter
  /\ (F64.py_pow2 sigma_A = Raised OverflowError
      \/ F64.py_pow2 sigma_B = Raised OverflowError ->
      F64.plot_two_stock_efficient_frontier mu_A mu_B sigma_A sigma_B corr_AB g
      = Raised OverflowError)
  /\ (forall a2 b2,
        F64.py_pow2 sigma_A = Returned a2 ->
        F64.py_pow2 sigma_B = Returned b2 ->
        exists f g',
          F64.plot_two_stock_efficient_frontier mu_A mu_B sigma_A sigma_B
            corr_AB g
          = Returned (f, g')
          /\ List.length (F64.port_returns f) = 200%nat
          /\ List.length (F64.port_stdevs f) = 200%nat
          /\ (F64.idx_min f < 200)%nat
          /\ nth_error (F64.port_stdevs f) (F64.idx_min f) = Some (F64.mvp_x f)
          /\ nth_error (F64.port_returns f) (F64.idx_min f) = Some (F64.mvp_y f)
          /\ List.length (F64.rand_returns f) = 3000%nat
          /\ List.length (F64.rand_stdevs f) = 3000%nat).
Proof.
  split; [| split].
  - destruct (py_pow2_cases sigma_A) as [HA | HA].
    + destruct (py_pow2_cases sigma_B) as [HB | HB].
      * destruct (plot64_returns mu_A mu_B sigma_A sigma_B corr_AB _ _ g HA HB)
          as (f & g' & E & _).
        rewrite E. discriminate.
      * rewrite plot64_overflows by now right. discriminate.
    + rewrite plot64_overflows by now left. discriminate.
  - apply plot64_overflows.
  - intros a2 b2 HA HB.
    exact (plot64_returns mu_A mu_B sigma_A sigma_B corr_AB a2 b2 g HA HB).
Qed.

(** Equal means, both volatilities zero, correlation -1. *)
Lemma C1_no_invalid_parameter_witness :
  exists f g',
    F64.plot_two_stock_efficient_frontier F64.d0_10 F64.d0_10 0%float 0%float
      (-1)%float (fun _ => 0x1p-1%float)
    = Returned (f, g')
    /\ List.length (F64.port_returns f) = 200%nat
    /\ List.length (F64.port_stdevs f) = 200%nat
    /\ (F64.idx_min f < 200)%nat
    /\ nth_error (F64.port_stdevs f) (F64.idx_min f) = Some (F64.mvp_x f)
    /\ nth_error (F64.port_returns f) (F64.idx_min f) = Some (F64.mvp_y f)
    /\ List.length (F64.rand_returns f) = 3000%nat
    /\ List.length (F64.rand_stdevs f) = 3000%nat.
Proof.
  apply (proj2 (proj2 (C1_no_invalid_parameter F64.d0_10 F64.d0_10 0%float
                         0%float (-1)%float (fun _ => 0x1p-1%float)))
           0%float 0%float); reflexivity.
Defined.

(** C2, at the valid input sigma_A = 1.59, sigma_B = 0.4, correlation -1
    (means 0.10 and 0.15).  The variance computed at the sampled weight of
    index 40 is negative, there is no clamp before the square root, and the
    standard deviation stored for that point is NaN. *)
Theorem C2_negative_variance :
  (0 <=? F64.d1_59)%float = true
  /\ (0 <=? F64.d0_4)%float = true
  /\ (-1 <=? -1)%float = true
  /\ (-1 <=? 1)%float = true
  /\ exists f g' w v,
       F64.plot_two_stock_efficient_frontier F64.d0_10 F64.d0_15 F64.d1_59
         F64.d0_4 (-1)%float (fun _ => 0x1p-1%float)
       = Returned (f, g')
       /\ nth_error (F64.weights f) 40 = Some w
       /\ F64.p_var F64.d1_59 F64.d0_4 (-1 * F64.d1_59 * F64.d0_4)%float w
          = Returned v
       /\ (v <? 0)%float = true
       /\ nth_error (F64.port_stdevs f) 40 = Some (PrimFloat.sqrt v)
       /\ PrimFloat.is_nan (PrimFloat.sqrt v) = true.
Proof.
  repeat (split; [vm_compute; reflexivity |]).
  do 4 eexists.
  repeat (split; [vm_compute; reflexivity |]).
  vm_compute. reflexivity.
Qed.

(** C3, at the same valid input.  [np.argmin] stops at the NaN of index 40:
    the minimum-variance point is that point, its standard deviation is NaN
    and is not less than or equal to the standard deviation 0.4 of the first
    point of the curve. *)
Theorem C3_min_variance_is_nan :
  exists f g' s0,
    F64.plot_two_stock_efficient_frontier F64.d0_10 F64.d0_15 F64.d1_59
      F64.d0_4 (-1)%float (fun _ => 0x1p-1%float)
    = Returned (f, g')
    /\ F64.idx_min f = 40%nat
    /\ PrimFloat.is_nan (F64.mvp_x f) = true
    /\ nth_error (F64.port_stdevs f) 0 = Some s0
    /\ s0 = F64.d0_4
    /\ (F64.mvp_x f <=? s0)%float = false.
Proof.
  do 3 eexists.
  repeat (split; [vm_compute; reflexivity |]).
  vm_compute. reflexivity.
Qed.


(** C5, at the default inputs of the sliders (means 0.10 and 0.15,
    volatilities 0.20 and 0.30, correlation 0.20).  The last point of the
    curve, stock A alone, belongs to the segment drawn as efficient, and the
    point just before it on the curve has a strictly higher expected return
    and a strictly lower standard deviation: the segment labelled efficient
    holds a dominated point. *)
Theorem C5_efficient_segment_dominated (g : Np.rng_state) :
  exists f g' p q sp sq,
    plot_two_stock_efficient_frontier (1/10) (3/20) (1/5) (3/10) (1/5) g
    = Returned (f, g')
    /\ In p (efficient f)
    /\ In q (curve f)
    /\ stdDev p = Np.Fin sp
    /\ stdDev q = Np.Fin sq
    /\ expectedReturn p < expectedReturn q
    /\ sq < sp.
Proof.
  assert (V : valid (1/5) (3/10) (1/5)) by (unfold valid; lra).
  destruct (plot_total (1/10) (3/20) (1/5) (3/10) (1/5) g) as (f & g' & H & C).
  destruct (mvp_on_curve _ _ _ _ _ _ _ _ C) as (Hlt & _).
  set (cov := 1/5 * (1/5) * (3/10)).
  set (P := fun j : nat =>
              {| weightA := INR j / 199;
                 expectedReturn := p_return (1/10) (3/20) (INR j / 199);
                 stdDev := Np.sqrt (p_var (1/5) (3/10) cov (INR j / 199)) |}).
  assert (HP : forall j, (j < n_points)%nat -> nth_error (curve f) j = Some (P j)).
  { intros j Hj. apply (curve_nth_error _ _ _ _ _ _ _ _ _ _ C). now split. }
  assert (Hsd : forall j, (j < n_points)%nat ->
            stdDev (P j) = Np.Fin (sqrt (p_var (1/5) (3/10) cov (INR j / 199)))).
  { intros j Hj. unfold P. cbn [stdDev].
    apply np_sqrt_nonneg, p_var_nonneg; [assumption | now apply weight_unit]. }
  exists f, g', (P 199%nat), (P 198%nat).
  exists (sqrt (p_var (1/5) (3/10) cov (INR 199 / 199))).
  exists (sqrt (p_var (1/5) (3/10) cov (INR 198 / 199))).
  split; [assumption |].
  split.
  { rewrite (efficient_suffix _ _ _ _ _ _ _ _ C).
    apply In_skipn_of_nth_error with (j := 199%nat).
    - unfold n_points in Hlt. lia.
    - apply HP. unfold n_points. lia. }
  split.
  { eapply nth_error_In. apply (HP 198%nat). unfold n_points. lia. }
  split; [apply Hsd; unfold n_points; lia |].
  split; [apply Hsd; unfold n_points; lia |].
  change (INR 199) with (INR (n_points - 1)).
  rewrite INR_199, INR_198.
  split.
  - unfold P. cbn [expectedReturn]. rewrite INR_198.
    change (INR 199) with (INR (n_points - 1)). rewrite INR_199.
    unfold p_return. lra.
  - apply sqrt_lt_1_alt. unfold p_var, cov. lra.
Qed.

(** C6, as stated, fails: the function has no seed parameter, and two
    successive calls with identical inputs draw from successive states of
    the generator.  With the draws 1/2, 1/3, 1/4, ... the two clouds of
    returns differ. *)
Lemma C6_counterexample :
  exists f1 g1 f2 g2,
    plot_two_stock_efficient_frontier (1/10) (3/20) (1/5) (3/10) (1/5)
      (fun k => / (INR k + 2))
    = Returned (f1, g1)
    /\ plot_two_stock_efficient_frontier (1/10) (3/20) (1/5) (3/10) (1/5) g1
       = Returned (f2, g2)
    /\ rand_returns f1 <> rand_returns f2.
Proof.
  destruct (plot_total (1/10) (3/20) (1/5) (3/10) (1/5) (fun k => / (INR k + 2)))
    as (f1 & g1 & H1 & C1).
  destruct (plot_total (1/10) (3/20) (1/5) (3/10) (1/5) g1)
    as (f2 & g2 & H2 & C2).
  exists f1, g1, f2, g2. split; [assumption |]. split; [assumption |].
  intros Heq. apply (f_equal (fun l => nth_error l 0)) in Heq.
  rewrite (c_rand_returns _ _ _ _ _ _ _ _ C1),
    (c_rand_returns _ _ _ _ _ _ _ _ C2) in Heq.
  rewrite (c_rand_w _ _ _ _ _ _ _ _ C1), (c_rand_w _ _ _ _ _ _ _ _ C2) in Heq.
  rewrite !nth_error_map, nth_error_seq in Heq.
  destruct (Nat.ltb_spec 0 n_portfolios) as [_ | Hge];
    [| unfold n_portfolios in Hge; lia].
  cbn [option_map Nat.add] in Heq.
  rewrite (c_rng _ _ _ _ _ _ _ _ C1) in Heq.
  injection Heq as Heq. unfold rp_return in Heq.
  assert (Hn : 1 <= INR (n_portfolios + 0)).
  { change 1 with (INR 1). apply le_INR. unfold n_portfolios. lia. }
  set (x := INR (n_portfolios + 0)) in *.
  assert (Hx : / (x + 2) <= / 3).
  { apply Rinv_le_contravar; lra. }
  replace (INR 0) with 0 in Heq by reflexivity.
  lra.
Qed.

(** C6, amended.  The function takes no seed.  On identical inputs the
    curve, the minimum-variance point and the two segments are the same for
    every state of the generator, and two calls started from generator states
    that deliver the same next 3000 draws (as after re-seeding the global
    generator with one seed before each call) return the same frontier,
    random cloud included. *)
Theorem C6_reproducible (mu_A mu_B sigma_A sigma_B corr_AB : R)
  (g1 g2 : Np.rng_state) :
  exists f1 g1' f2 g2',
    plot_two_stock_efficient_frontier mu_A mu_B sigma_A sigma_B corr_AB g1
    = Returned (f1, g1')
    /\ plot_two_stock_efficient_frontier mu_A mu_B sigma_A sigma_B corr_AB g2
       = Returned (f2, g2')
    /\ curve f1 = curve f2
    /\ minVariance f1 = minVariance f2
    /\ inefficient f1 = inefficient f2
    /\ efficient f1 = efficient f2
    /\ ((forall k, (k < n_portfolios)%nat -> g1 k = g2 k) -> f1 = f2).
Proof.
  destruct (plot_total mu_A mu_B sigma_A sigma_B corr_AB g1)
    as (f1 & g1' & H1 & C1).
  destruct (plot_total mu_A mu_B sigma_A sigma_B corr_AB g2)
    as (f2 & g2' & H2 & C2).
  destruct (computes_curve_deterministic _ _ _ _ _ _ _ _ _ _ _ C1 C2)
    as (Ew & Er & Es & Ei & Ex & Ey & Exi & Eyi & Exe & Eye).
  exists f1, g1', f2, g2'.
  split; [assumption |]. split; [assumption |].
  split; [unfold curve; now rewrite Ew, Er, Es |].
  split; [unfold minVariance; now rewrite Ew, Ei, Ex, Ey |].
  split; [unfold inefficient; now rewrite Ew, Ei, Exi, Eyi |].
  split; [unfold efficient; now rewrite Ew, Ei, Exe, Eye |].
  intros Hg.
  destruct (computes_cloud_deterministic _ _ _ _ _ _ _ _ _ _ _ C1 C2 Hg)
    as (Erw & Err & Ers).
  now apply frontier_eq.
Qed.

Lemma C6_reproducible_witness :
  exists f1 g1' f2 g2',
    plot_two_stock_efficient_frontier (1/10) (3/20) (1/5) (3/10) (1/5)
      (fun k => / (INR k + 2))
    = Returned (f1, g1')
    /\ plot_two_stock_efficient_frontier (1/10) (3/20) (1/5) (3/10) (1/5)
         (fun k => / (INR k + 2))
       = Returned (f2, g2')
    /\ f1 = f2.
Proof.
  destruct (C6_reproducible (1/10) (3/20) (1/5) (3/10) (1/5)
              (fun k => / (INR k + 2)) (fun k => / (INR k + 2)))
    as (f1 & g1' & f2 & g2' & H1 & H2 & _ & _ & _ & _ & Hf).
  exists f1, g1', f2, g2'. split; [exact H1 |]. split; [exact H2 |].
  apply Hf. intros k _. reflexivity.
Defined.



(** C8.  With correlation 1, volatilities 0.20 for A and 0.30 for B and any
    two means, every point of the curve lies on one straight line of the
    (standard deviation, return) plane, and the least standard deviation is
    reached at the last point of the curve, weight 1: stock A alone. *)
Theorem C8_perfect_correlation (mu_A mu_B : R) (g : Np.rng_state) :
  exists f g',
    plot_two_stock_efficient_frontier mu_A mu_B (1/5) (3/10) 1 g
    = Returned (f, g')
    /\ (forall p, In p (curve f) ->
          exists x, stdDev p = Np.Fin x
                    /\ x = 3/10 - weightA p / 10
                    /\ (mu_A - mu_B) * x + (1/10) * expectedReturn p
                       = (3/10) * mu_A - (1/5) * mu_B)
    /\ idx_min f = 199%nat
    /\ nth_error (curve f) (length (curve f) - 1) = Some (minVariance f)
    /\ minVariance f
       = {| weightA := 1; expectedReturn := mu_A; stdDev := Np.Fin (1/5) |}.
Proof.
  assert (V : valid (1/5) (3/10) 1) by (unfold valid; lra).
  destruct (plot_total mu_A mu_B (1/5) (3/10) 1 g) as (f & g' & H & C).
  destruct (mvp_on_curve _ _ _ _ _ _ _ _ C) as (Hlt & Hmvp).
  pose proof (curve_length _ _ _ _ _ _ _ _ C) as Hlen.
  exists f, g'. split; [assumption |].
  assert (Hidx : idx_min f = (n_points - 1)%nat).
  { destruct (idx_min_first_min _ _ _ _ _ _ _ _ V C) as (m & _ & Hm).
    refine (proj1 (first_min_unique _ _ _ _ (1/5) Hm _)).
    rewrite (c_weights _ _ _ _ _ _ _ _ C).
    assert (Hnth : forall j x,
               nth_error
                 (map (fun w => sqrt (p_var (1/5) (3/10) (1 * (1/5) * (3/10)) w))
                    (Np.linspace 0 1 n_points)) j = Some x ->
               (j < n_points)%nat /\ x = 3/10 - INR j / 199 / 10).
    { intros j x Hj.
      assert (Hjlt : (j < n_points)%nat).
      { rewrite <- (linspace_length 0 1 n_points),
          <- (length_map
                (fun w => sqrt (p_var (1/5) (3/10) (1 * (1/5) * (3/10)) w))).
        apply nth_error_Some. congruence. }
      split; [assumption |].
      rewrite nth_error_map, weights_nth_error in Hj by assumption.
      cbn [option_map] in Hj. injection Hj as <-.
      apply sd_perfect_correlation. now apply weight_unit. }
    repeat split.
    - rewrite nth_error_map, weights_nth_error by (unfold n_points; lia).
      cbn [option_map]. f_equal.
      rewrite INR_199.
      rewrite sd_perfect_correlation by lra. lra.
    - intros j x Hj. apply Hnth in Hj as (Hjlt & ->).
      pose proof (weight_unit j Hjlt). lra.
    - intros j x Hjlt Hj. apply Hnth in Hj as (_ & ->).
      pose proof (INR_lt_199 j Hjlt). lra. }
  split; [| split; [exact Hidx | split]].
  - intros p Hp. apply In_nth_error_iff in Hp as (j & Hj).
    apply (curve_nth_error _ _ _ _ _ _ _ _ _ _ C) in Hj as (Hjlt & ->).
    cbn [stdDev weightA expectedReturn].
    pose proof (weight_unit j Hjlt) as Hw.
    exists (3/10 - INR j / 199 / 10).
    split; [| split; [reflexivity | unfold p_return; lra]].
    rewrite np_sqrt_nonneg by (apply p_var_nonneg; assumption).
    f_equal. now apply sd_perfect_correlation.
  - rewrite Hlen, <- Hidx. exact Hmvp.
  - rewrite Hidx in Hmvp.
    apply (curve_nth_error _ _ _ _ _ _ _ _ _ _ C) in Hmvp as (_ & ->).
    rewrite INR_199.
    replace (199 / 199) with 1 by lra.
    f_equal.
    + unfold p_return. ring.
    + rewrite np_sqrt_nonneg by (apply p_var_nonneg; [assumption | lra]).
      f_equal. rewrite sd_perfect_correlation by lra. lra.
Qed.

(** C9.  Whatever the five inputs and the state of the generator, the call
    returns, the curve has exactly 200 points and the random cloud exactly
    3000: both counts are constants of the function. *)
Theorem C9_fixed_sizes (mu_A mu_B sigma_A sigma_B corr_AB : R)
  (g : Np.rng_state) :
  exists f g',
    plot_two_stock_efficient_frontier mu_A mu_B sigma_A sigma_B corr_AB g
    = Returned (f, g')
    /\ length (curve f) = 200%nat
    /\ length (weights f) = 200%nat
    /\ length (port_returns f) = 200%nat
    /\ length (port_stdevs f) = 200%nat
    /\ length (rand_w f) = 3000%nat
    /\ length (rand_returns f) = 3000%nat
    /\ length (rand_stdevs f) = 3000%nat.
Proof.
  destruct (plot_total mu_A mu_B sigma_A sigma_B corr_AB g) as (f & g' & H & C).
  exists f, g'. split; [assumption |].
  assert (Hw : length (weights f) = n_points).
  { rewrite (c_weights _ _ _ _ _ _ _ _ C). apply linspace_length. }
  assert (Hr : length (rand_w f) = n_portfolios).
  { rewrite (c_rand_w _ _ _ _ _ _ _ _ C). now rewrite length_map, length_seq. }
  repeat split.
  - apply (curve_length _ _ _ _ _ _ _ _ C).
  - exact Hw.
  - rewrite (c_returns _ _ _ _ _ _ _ _ C), length_map. exact Hw.
  - rewrite (c_stdevs _ _ _ _ _ _ _ _ C), length_map. exact Hw.
  - exact Hr.
  - rewrite (c_rand_returns _ _ _ _ _ _ _ _ C), length_map. exact Hr.
  - rewrite (c_rand_stdevs _ _ _ _ _ _ _ _ C), length_map. exact Hr.
Qed.



(** ** The variance at the two ends *)




(** ** Further properties of the function *)







(** Two calls whose curve arrays agree split them alike. *)
Lemma same_arrays_same_split
  (mu_A1 mu_B1 sigma_A1 sigma_B1 corr_AB1 : R)
  (mu_A2 mu_B2 sigma_A2 sigma_B2 corr_AB2 : R)
  (g1 g1' g2 g2' : Np.rng_state) (f1 f2 : frontier) :
  computes mu_A1 mu_B1 sigma_A1 sigma_B1 corr_AB1 g1 f1 g1' ->
  computes mu_A2 mu_B2 sigma_A2 sigma_B2 corr_AB2 g2 f2 g2' ->
  port_returns f1 = port_returns f2 ->
  port_stdevs f1 = port_stdevs f2 ->
  curve f1 = curve f2
  /\ idx_min f1 = idx_min f2
  /\ minVariance f1 = minVariance f2
  /\ inefficient f1 = inefficient f2
  /\ efficient f1 = efficient f2.
Proof.
  intros C1 C2 Hr Hs.
  assert (Hw : weights f1 = weights f2).
  { rewrite (c_weights _ _ _ _ _ _ _ _ C1). symmetry.
    apply (c_weights _ _ _ _ _ _ _ _ C2). }
  assert (Hi : idx_min f1 = idx_min f2).
  { apply Returned_inj.
    rewrite <- (c_idx _ _ _ _ _ _ _ _ C1), <- (c_idx _ _ _ _ _ _ _ _ C2).
    now rewrite Hs. }
  assert (Hc : curve f1 = curve f2).
  { unfold curve. now rewrite Hw, Hr, Hs. }
  split; [exact Hc |]. split; [exact Hi |]. split; [| split].
  - pose proof (proj2 (mvp_on_curve _ _ _ _ _ _ _ _ C1)) as E1.
    pose proof (proj2 (mvp_on_curve _ _ _ _ _ _ _ _ C2)) as E2.
    rewrite Hc, Hi in E1. congruence.
  - rewrite (inefficient_prefix _ _ _ _ _ _ _ _ C1),
      (inefficient_prefix _ _ _ _ _ _ _ _ C2).
    now rewrite Hc, Hi.
  - rewrite (efficient_suffix _ _ _ _ _ _ _ _ C1),
      (efficient_suffix _ _ _ _ _ _ _ _ C2).
    now rewrite Hc, Hi.
Qed.

(** X6.  A negative volatility is accepted silently, and is treated like
    the positive one with the sign of the correlation changed: the two calls
    draw the same curve, the same minimum-variance point and the same two
    segments. *)
Theorem X6_negative_volatility_flips_correlation
  (mu_A mu_B sigma_A sigma_B corr_AB : R) (g1 g2 : Np.rng_state) :
  exists f1 g1' f2 g2',
    plot_two_stock_efficient_frontier mu_A mu_B (- sigma_A) sigma_B corr_AB g1
    = Returned (f1, g1')
    /\ plot_two_stock_efficient_frontier mu_A mu_B sigma_A sigma_B (- corr_AB) g2
       = Returned (f2, g2')
    /\ curve f1 = curve f2
    /\ minVariance f1 = minVariance f2
    /\ inefficient f1 = inefficient f2
    /\ efficient f1 = efficient f2.
Proof.
  destruct (plot_total mu_A mu_B (- sigma_A) sigma_B corr_AB g1)
    as (f1 & g1' & H1 & C1).
  destruct (plot_total mu_A mu_B sigma_A sigma_B (- corr_AB) g2)
    as (f2 & g2' & H2 & C2).
  exists f1, g1', f2, g2'. split; [assumption |]. split; [assumption |].
  assert (Hw : weights f1 = weights f2).
  { rewrite (c_weights _ _ _ _ _ _ _ _ C1). symmetry.
    apply (c_weights _ _ _ _ _ _ _ _ C2). }
  destruct (same_arrays_same_split _ _ _ _ _ _ _ _ _ _ _ _ _ _ _ _ C1 C2)
    as (Hc & _ & Hm & Hi & He).
  - rewrite (c_returns _ _ _ _ _ _ _ _ C1), (c_returns _ _ _ _ _ _ _ _ C2).
    now rewrite Hw.
  - rewrite (c_stdevs _ _ _ _ _ _ _ _ C1), (c_stdevs _ _ _ _ _ _ _ _ C2), Hw.
    apply map_ext. intros w. f_equal. unfold p_var. ring.
  - auto.
Qed.


(** ** The two segments, point by point *)








(** ** The figure, line by line *)





